(** * CppCookbook: the [IntWrapper] value type and its two demonstrations

    A shallow embedding of [src/constructors.cpp] and [src/forwarding.cpp].
    Both files declare the same class [IntWrapper]; it is embedded once and
    each file's free functions live in a module of their own.

    C++ objects have identity and are passed by reference, so the embedding
    keeps an explicit object store: a reference ([IntWrapper&],
    [const IntWrapper&], [IntWrapper&&], [this]) is a location of the store.
    Everything written to [std::cout] is appended to a trace. *)

From stdpp Require Import gmap strings list fin_maps.
From Stdlib Require Import ZArith Ascii.

#[local] Open Scope Z_scope.

(** ** Data model *)

(** [class IntWrapper { int value_; const int val2{2}; }].  The two members
    are C++ [int]s; no arithmetic is ever performed on them (they are only
    initialised, copied and printed), so they are carried as [Z] and no
    wrap-around can arise. *)
Record IntWrapper : Type := mkIntWrapper {
  value_ : Z;
  val2 : Z
}.

(** The default member initialiser of [const int val2{2};], used by every
    constructor whose initialiser list does not mention [val2]. *)
Definition val2_default : Z := 2.

(** A reference to an [IntWrapper] object. *)
Definition loc : Type := nat.

(** What has been streamed into [std::cout]: string literals, [int]s and
    [std::endl]. *)
Inductive out_item : Type :=
| OutStr (s : string)
| OutInt (z : Z)
| OutEndl.

(** The line feed that ends the string literals of the constructors. *)
Definition LF : string := String "010"%char EmptyString.

(** Program state: the live objects, the next unused location, and the
    output so far (oldest first). *)
Record state : Type := mkState {
  heap : gmap loc IntWrapper;
  next : loc;
  cout : list out_item
}.

Definition init : state :=
  {| heap := ∅; next := 0%nat; cout := [] |}.

(** Every live object sits below the allocation pointer. *)
Definition wf (st : state) : Prop :=
  map_Forall (λ l _, (l < next st)%nat) (heap st).

(** ** State and failure *)

(** A computation threads the state and fails ([None]) when it touches an
    object that is not alive, which is undefined behaviour in C++. *)
Definition M (A : Type) : Type := state → option (A * state).

#[global] Instance M_ret : MRet M := λ A x st, Some (x, st).

#[global] Instance M_bind : MBind M := λ A B f m st,
  match m st with
  | Some (x, st') => f x st'
  | None => None
  end.

(** [std::cout << x] *)
Definition emit (x : out_item) : M unit := λ st,
  Some (tt, {| heap := heap st; next := next st; cout := cout st ++ [x] |}).

(** Storage for a new object, initialised to [w]. *)
Definition new_object (w : IntWrapper) : M loc := λ st,
  Some (next st,
        {| heap := <[next st := w]> (heap st);
           next := S (next st);
           cout := cout st |}).

(** Reading the object behind a reference. *)
Definition load (l : loc) : M IntWrapper := λ st,
  match heap st !! l with
  | Some w => Some (w, st)
  | None => None
  end.

(** [l.value_] *)
Definition read_value_ (l : loc) : M Z :=
  w ← load l; mret (value_ w).

(** [l.value_ = v;]  The member [val2] is [const] and keeps its value. *)
Definition write_value_ (l : loc) (v : Z) : M unit := λ st,
  match heap st !! l with
  | Some w =>
      Some (tt, {| heap := <[l := {| value_ := v; val2 := val2 w |}]> (heap st);
                   next := next st;
                   cout := cout st |})
  | None => None
  end.

(** End of an object's lifetime (scope exit; the destructor is implicit and
    prints nothing). *)
Definition destroy (l : loc) : M unit := λ st,
  match heap st !! l with
  | Some _ =>
      Some (tt, {| heap := delete l (heap st);
                   next := next st;
                   cout := cout st |})
  | None => None
  end.

(** [std::move] is a cast to an rvalue reference: the same object. *)
Definition std_move {A : Type} (x : A) : A := x.

(** ** The special member functions of [IntWrapper] *)

(** [IntWrapper() : value_(0) { std::cout << "default const.\n"; }] *)
Definition IntWrapper_default : M loc :=
  this ← new_object {| value_ := 0; val2 := val2_default |};
  emit (OutStr ("default const." +:+ LF));;
  mret this.

(** [IntWrapper(int value) : value_(value), val2{value}
     { std::cout << "arg constructor\n"; }] *)
Definition IntWrapper_value (value : Z) : M loc :=
  this ← new_object {| value_ := value; val2 := value |};
  emit (OutStr ("arg constructor" +:+ LF));;
  mret this.

(** [IntWrapper(const IntWrapper& other) : value_(other.value_)
     { std::cout << "copy constructor\n"; }] *)
Definition IntWrapper_copy (other : loc) : M loc :=
  v ← read_value_ other;
  this ← new_object {| value_ := v; val2 := val2_default |};
  emit (OutStr ("copy constructor" +:+ LF));;
  mret this.

(** [IntWrapper(IntWrapper&& other) : value_(std::move(other.value_))
     { std::cout << "move const.\n"; }] *)
Definition IntWrapper_move (other : loc) : M loc :=
  v ← read_value_ other;
  this ← new_object {| value_ := std_move v; val2 := val2_default |};
  emit (OutStr ("move const." +:+ LF));;
  mret this.

(** [IntWrapper& operator=(const IntWrapper& other)] *)
Definition operator_assign_copy (this other : loc) : M loc :=
  emit (OutStr ("copy assignment" +:+ LF));;
  v ← read_value_ other;
  write_value_ this v;;
  mret this.

(** [IntWrapper& operator=(IntWrapper&& other)] *)
Definition operator_assign_move (this other : loc) : M loc :=
  emit (OutStr ("move assignment" +:+ LF));;
  v ← read_value_ other;
  write_value_ this (std_move v);;
  mret this.

(** ** Passing an [IntWrapper] by value

    The argument expression of a by-value parameter decides how the
    parameter object is initialised: an lvalue copy-constructs it, an xvalue
    such as [std::move(x)] move-constructs it, and a prvalue such as
    [IntWrapper(2)] constructs it in place. *)
Inductive arg : Type :=
| ArgLvalue (l : loc)
| ArgXvalue (l : loc)
| ArgPrvalue (e : M loc).

Definition pass_by_value (a : arg) : M loc :=
  match a with
  | ArgLvalue l => IntWrapper_copy l
  | ArgXvalue l => IntWrapper_move l
  | ArgPrvalue e => e
  end.

(** ** [src/constructors.cpp] *)

Module Constructors.

(** [void func1(const IntWrapper& wrapper)]: prints [wrapper.value_]. *)
Definition func1 (wrapper : loc) : M unit :=
  v ← read_value_ wrapper;
  emit (OutInt v);;
  emit OutEndl.

(** [void func2(const IntWrapper wrapper)]: the parameter is an object of
    its own, initialised from the argument and destroyed after the call;
    the body prints [wrapper.value_]. *)
Definition func2 (a : arg) : M unit :=
  wrapper ← pass_by_value a;
  v ← read_value_ wrapper;
  emit (OutInt v);;
  emit OutEndl;;
  destroy wrapper.

(** [void func3(IntWrapper&& wrapper)]: prints [wrapper.value_]. *)
Definition func3 (wrapper : loc) : M unit :=
  v ← read_value_ wrapper;
  emit (OutInt v);;
  emit OutEndl.

(** The statements of [main] up to [return 0;], yielding the two locals
    [wrapper] and [newWrapper].  The vector [wrappers] stays empty and is
    never used.  [auto wrapper = IntWrapper(22);] initialises [wrapper]
    directly from the prvalue (no move constructor runs). *)
Definition main_body : M (loc * loc) :=
  wrapper ← IntWrapper_value 22;
  newWrapper ← IntWrapper_default;
  operator_assign_copy newWrapper wrapper;;
  operator_assign_move newWrapper (std_move wrapper);;
  mret (wrapper, newWrapper).

(** [int main()]: the body, then the locals go out of scope in reverse
    order of declaration. *)
Definition main : M Z :=
  '(wrapper, newWrapper) ← main_body;
  destroy newWrapper;;
  destroy wrapper;;
  mret 0.

End Constructors.

(** ** [src/forwarding.cpp] *)

Module Forwarding.

(** [template<typename T> void valAssign(T&& valIn)]: move-constructs the
    local [val] from the argument and prints its [value_]. *)
Definition valAssign (valIn : loc) : M unit :=
  val ← IntWrapper_move (std_move valIn);
  emit (OutStr "value: ");;
  v ← read_value_ val;
  emit (OutInt v);;
  emit OutEndl;;
  destroy val.

(** [int main()] *)
Definition main : M Z :=
  val ← IntWrapper_value 2;
  valAssign (std_move val);;
  destroy val;;
  mret 0.

End Forwarding.

(** ** Histories of operations on instances

    Any client of the class performs a sequence of the operations below;
    the lifetime of an instance is the part of such a sequence between its
    construction and its destruction. *)
Inductive op : Type :=
| DefaultConstruct
| ValueConstruct (value : Z)
| CopyConstruct (other : loc)
| MoveConstruct (other : loc)
| CopyAssign (this other : loc)
| MoveAssign (this other : loc)
| Destroy (this : loc).

Definition exec_op (o : op) : M unit :=
  match o with
  | DefaultConstruct => IntWrapper_default;; mret tt
  | ValueConstruct value => IntWrapper_value value;; mret tt
  | CopyConstruct other => IntWrapper_copy other;; mret tt
  | MoveConstruct other => IntWrapper_move (std_move other);; mret tt
  | CopyAssign this other => operator_assign_copy this other;; mret tt
  | MoveAssign this other => operator_assign_move this (std_move other);; mret tt
  | Destroy this => destroy this
  end.

Fixpoint exec_ops (os : list op) : M unit :=
  match os with
  | [] => mret tt
  | o :: os' => exec_op o;; exec_ops os'
  end.

(** The fields of the object behind [l], when it is alive. *)
Definition fields (st : state) (l : loc) : option (Z * Z) :=
  (λ w, (value_ w, val2 w)) <$> heap st !! l.

(** How the store can change in one operation: a new object appears at the
    allocation pointer, the [value_] of a live object is overwritten (its
    [val2] kept), or an object goes away. *)
Inductive heap_step (st st' : state) : Prop :=
| step_new (x : IntWrapper) :
    heap st' = <[next st := x]> (heap st) →
    next st' = S (next st) →
    heap_step st st'
| step_upd (d : loc) (dw : IntWrapper) (v : Z) :
    heap st !! d = Some dw →
    heap st' = <[d := {| value_ := v; val2 := val2 dw |}]> (heap st) →
    next st' = next st →
    heap_step st st'
| step_del (d : loc) :
    heap st' = delete d (heap st) →
    next st' = next st →
    heap_step st st'.

(** What every operation preserves, from [st] to [st']. *)
Definition preserved (st st' : state) : Prop :=
  wf st' ∧
  (next st ≤ next st')%nat ∧
  (∀ (l : loc) (w w' : IntWrapper),
     heap st !! l = Some w → heap st' !! l = Some w' → val2 w' = val2 w) ∧
  (∀ l : loc, (l < next st)%nat → heap st !! l = None → heap st' !! l = None).

#[global] Instance wf_dec (st : state) : Decision (wf st).
Proof. unfold wf. apply _. Defined.

(** ** Sample states

    [demo_one] holds one value-constructed instance whose two fields differ
    from the defaults; [demo_two] adds a default-constructed one. *)
Definition demo_one : state :=
  {| heap := {[ 0%nat := {| value_ := 22; val2 := 22 |} ]};
     next := 1%nat;
     cout := [] |}.

Definition demo_two : state :=
  {| heap := <[ 1%nat := {| value_ := 0; val2 := 2 |} ]>
               {[ 0%nat := {| value_ := 22; val2 := 22 |} ]};
     next := 2%nat;
     cout := [] |}.

(** A short history over [demo_two]: both assignments into object 1, a copy
    of object 1, and the end of object 0. *)
Definition demo_history : list op :=
  [CopyAssign 1%nat 0%nat; MoveAssign 1%nat 0%nat; CopyConstruct 1%nat;
   Destroy 0%nat; ValueConstruct 7].

(** A history over [demo_two] that reads object 0 in every way but never
    assigns to it or destroys it. *)
Definition demo_readers : list op :=
  [CopyAssign 1%nat 0%nat; MoveAssign 1%nat 0%nat; MoveConstruct 0%nat;
   CopyConstruct 0%nat; Destroy 1%nat; ValueConstruct 7].

(** How many operations of a history satisfy [p]. *)
Definition count_ops (p : op → bool) (os : list op) : nat :=
  length (List.filter p os).

(** ** Reading a history off the output

    The six special member functions, and the string literal each one
    streams into [std::cout]. *)
Inductive kind : Type :=
| KDefault | KValue | KCopy | KMove | KCopyAssign | KMoveAssign.

Definition marker (k : kind) : string :=
  match k with
  | KDefault => "default const." +:+ LF
  | KValue => "arg constructor" +:+ LF
  | KCopy => "copy constructor" +:+ LF
  | KMove => "move const." +:+ LF
  | KCopyAssign => "copy assignment" +:+ LF
  | KMoveAssign => "move assignment" +:+ LF
  end.

(** Which member function an operation runs; the implicit destructor is
    none of the six. *)
Definition kind_of (o : op) : option kind :=
  match o with
  | DefaultConstruct => Some KDefault
  | ValueConstruct _ => Some KValue
  | CopyConstruct _ => Some KCopy
  | MoveConstruct _ => Some KMove
  | CopyAssign _ _ => Some KCopyAssign
  | MoveAssign _ _ => Some KMoveAssign
  | Destroy _ => None
  end.

Definition kinds (os : list op) : list kind := omap kind_of os.

(** The object an operation writes to or destroys; constructors have none
    (they make a new one). *)
Definition target (o : op) : option loc :=
  match o with
  | CopyAssign this _ | MoveAssign this _ | Destroy this => Some this
  | _ => None
  end.

Definition is_construct (o : op) : bool :=
  match o with
  | DefaultConstruct | ValueConstruct _ | CopyConstruct _ | MoveConstruct _ => true
  | _ => false
  end.

Definition is_destroy (o : op) : bool :=
  match o with
  | Destroy _ => true
  | _ => false
  end.

(** * Properties *)

(** ** The primitives *)

Ltac unfold_M := cbv [mbind M_bind mret M_ret].
Tactic Notation "unfold_M" "in" hyp(H) := cbv [mbind M_bind mret M_ret] in H.

Ltac unfold_ops :=
  unfold IntWrapper_default, IntWrapper_value, IntWrapper_copy,
    IntWrapper_move, operator_assign_copy, operator_assign_move,
    read_value_, load, new_object, write_value_, destroy, emit, std_move,
    val2_default;
  unfold_M; cbn [heap next cout].

Lemma wf_init : wf init.
Proof. unfold wf, init; cbn. apply map_Forall_empty. Qed.

Lemma wf_live (st : state) (l : loc) (w : IntWrapper) :
  wf st → heap st !! l = Some w → (l < next st)%nat.
Proof. intros Hwf Hl. exact (Hwf l w Hl). Qed.

(** The allocation pointer never names a live object. *)
Lemma wf_next_fresh (st : state) : wf st → heap st !! next st = None.
Proof.
  intros Hwf. destruct (heap st !! next st) as [w|] eqn:E; [|reflexivity].
  apply (wf_live st _ w Hwf) in E. lia.
Qed.

Lemma wf_live_ne_next (st : state) (l : loc) (w : IntWrapper) :
  wf st → heap st !! l = Some w → l ≠ next st.
Proof. intros Hwf Hl. apply (wf_live st l w Hwf) in Hl. lia. Qed.

(** ** Closed forms of the six operations *)

Lemma IntWrapper_default_eq (st : state) :
  IntWrapper_default st =
  Some (next st,
        {| heap := <[next st := {| value_ := 0; val2 := 2 |}]> (heap st);
           next := S (next st);
           cout := cout st ++ [OutStr ("default const." +:+ LF)] |}).
Proof. reflexivity. Qed.

Lemma IntWrapper_value_eq (st : state) (v : Z) :
  IntWrapper_value v st =
  Some (next st,
        {| heap := <[next st := {| value_ := v; val2 := v |}]> (heap st);
           next := S (next st);
           cout := cout st ++ [OutStr ("arg constructor" +:+ LF)] |}).
Proof. reflexivity. Qed.

Lemma IntWrapper_copy_eq (st : state) (o : loc) (ow : IntWrapper) :
  heap st !! o = Some ow →
  IntWrapper_copy o st =
  Some (next st,
        {| heap := <[next st := {| value_ := value_ ow; val2 := 2 |}]> (heap st);
           next := S (next st);
           cout := cout st ++ [OutStr ("copy constructor" +:+ LF)] |}).
Proof. intros Ho. unfold_ops. rewrite Ho. reflexivity. Qed.

Lemma IntWrapper_move_eq (st : state) (o : loc) (ow : IntWrapper) :
  heap st !! o = Some ow →
  IntWrapper_move o st =
  Some (next st,
        {| heap := <[next st := {| value_ := value_ ow; val2 := 2 |}]> (heap st);
           next := S (next st);
           cout := cout st ++ [OutStr ("move const." +:+ LF)] |}).
Proof. intros Ho. unfold_ops. rewrite Ho. reflexivity. Qed.

Lemma operator_assign_copy_eq (st : state) (d o : loc) (dw ow : IntWrapper) :
  heap st !! d = Some dw → heap st !! o = Some ow →
  operator_assign_copy d o st =
  Some (d,
        {| heap := <[d := {| value_ := value_ ow; val2 := val2 dw |}]> (heap st);
           next := next st;
           cout := cout st ++ [OutStr ("copy assignment" +:+ LF)] |}).
Proof.
  intros Hd Ho. unfold_ops. rewrite Ho. cbn [heap next cout].
  rewrite Hd. reflexivity.
Qed.

Lemma operator_assign_move_eq (st : state) (d o : loc) (dw ow : IntWrapper) :
  heap st !! d = Some dw → heap st !! o = Some ow →
  operator_assign_move d o st =
  Some (d,
        {| heap := <[d := {| value_ := value_ ow; val2 := val2 dw |}]> (heap st);
           next := next st;
           cout := cout st ++ [OutStr ("move assignment" +:+ LF)] |}).
Proof.
  intros Hd Ho. unfold_ops. rewrite Ho. cbn [heap next cout].
  rewrite Hd. reflexivity.
Qed.

(** A constructor or an assignment that reads a dead source fails. *)
Lemma dead_source_fails (st : state) (d o : loc) :
  heap st !! o = None →
  IntWrapper_copy o st = None ∧ IntWrapper_move o st = None ∧
  operator_assign_copy d o st = None ∧ operator_assign_move d o st = None.
Proof. intros Ho. unfold_ops. rewrite Ho. auto. Qed.

(** ** One step of a history *)

Lemma exec_op_step (o : op) (st st' : state) :
  exec_op o st = Some (tt, st') → heap_step st st'.
Proof.
  destruct o as [|v|other|other|this other|this other|this];
    cbn [exec_op]; unfold_ops;
    repeat match goal with
           | |- context [heap st !! ?k] =>
               let F := fresh "F" in
               destruct (heap st !! k) eqn:F; cbn [heap next cout]
           end;
    try discriminate; intros [= <-].
  1-4: by eapply step_new.
  1-2: by eapply step_upd.
  by eapply step_del.
Qed.

(** Each kind of step keeps the store well formed, never lowers the
    allocation pointer, leaves the [val2] of every surviving object as it
    was, and never revives a location that was already handed out. *)
Lemma heap_step_preserved (st st' : state) :
  wf st → heap_step st st' → preserved st st'.
Proof.
  intros Hwf [x Hh Hn | d dw v Hd Hh Hn | d Hh Hn]; unfold preserved, wf;
    rewrite Hh, Hn.
  - split; [|split; [lia|split]].
    + apply map_Forall_insert_2; [lia|].
      intros k y Hk. specialize (Hwf k y Hk). cbn in Hwf. lia.
    + intros l w w' Hl Hl'.
      rewrite lookup_insert_ne in Hl' by (symmetry; by eapply wf_live_ne_next).
      congruence.
    + intros l Hlt Hl. rewrite lookup_insert_ne by lia. exact Hl.
  - split; [|split; [lia|split]].
    + apply map_Forall_insert_2; [exact (wf_live st d dw Hwf Hd)|exact Hwf].
    + intros l w w' Hl Hl'. destruct (decide (d = l)) as [->|Hne].
      * rewrite lookup_insert_eq in Hl'. injection Hl' as <-. cbn. congruence.
      * rewrite lookup_insert_ne in Hl' by exact Hne. congruence.
    + intros l Hlt Hl. rewrite lookup_insert_ne; [exact Hl|].
      intros ->. congruence.
  - split; [|split; [lia|split]].
    + apply map_Forall_delete. exact Hwf.
    + intros l w w' Hl Hl'. apply lookup_delete_Some in Hl' as [_ Hl'].
      congruence.
    + intros l Hlt Hl. rewrite lookup_delete_None. by right.
Qed.

Lemma exec_op_preserved (o : op) (st st' : state) :
  wf st → exec_op o st = Some (tt, st') → preserved st st'.
Proof. intros Hwf Hrun. by apply heap_step_preserved, (exec_op_step o). Qed.

(** ** Whole histories *)

Lemma exec_ops_preserved (os : list op) (st st' : state) :
  wf st → exec_ops os st = Some (tt, st') → preserved st st'.
Proof.
  revert st. induction os as [|o os IH]; intros st Hwf Hrun.
  - injection Hrun as <-. unfold preserved. repeat split; try done.
    intros l w w' Hl Hl'. congruence.
  - cbn [exec_ops] in Hrun. unfold_M in Hrun.
    destruct (exec_op o st) as [[[] st1]|] eqn:E; [|discriminate].
    destruct (exec_op_preserved o st st1 Hwf E) as (Hwf1 & Hn1 & Hk1 & Hd1).
    destruct (IH st1 Hwf1 Hrun) as (Hwf2 & Hn2 & Hk2 & Hd2).
    split; [exact Hwf2|]. split; [lia|]. split.
    + intros l w w' Hl Hl'. destruct (heap st1 !! l) as [w1|] eqn:Hl1.
      * rewrite (Hk2 l w1 w' Hl1 Hl'). exact (Hk1 l w w1 Hl Hl1).
      * (* destroyed on the way: the location cannot be alive again *)
        apply (wf_live st l w Hwf) in Hl.
        rewrite (Hd2 l) in Hl' by (lia || exact Hl1). discriminate.
    + intros l Hlt Hl. apply Hd2; [lia|]. by apply Hd1.
Qed.

(** ** Construction *)

(** C6. Default construction always yields an instance whose primary field
    is 0 and whose secondary field is 2, whatever the state it runs in. *)
Theorem default_construct_fields (st : state) :
  ∃ l st', IntWrapper_default st = Some (l, st') ∧ fields st' l = Some (0, 2).
Proof.
  eexists _, _. split; [apply IntWrapper_default_eq|].
  unfold fields; cbn. by rewrite lookup_insert_eq.
Qed.

(** C5. For every integer [v], value construction with [v] yields an
    instance whose primary and secondary fields are both [v]. *)
Theorem value_construct_fields (st : state) (v : Z) :
  ∃ l st', IntWrapper_value v st = Some (l, st') ∧ fields st' l = Some (v, v).
Proof.
  eexists _, _. split; [apply IntWrapper_value_eq|].
  unfold fields; cbn. by rewrite lookup_insert_eq.
Qed.

(** C1. Copy construction from a live instance [o] yields a new instance
    (one that was not alive before) whose primary field is that of [o] and
    whose secondary field is 2, whatever the secondary field of [o] is. *)
Theorem copy_construct_fields (st : state) (o : loc) (ow : IntWrapper) :
  wf st → heap st !! o = Some ow →
  ∃ l st', IntWrapper_copy o st = Some (l, st') ∧
           heap st !! l = None ∧
           fields st' l = Some (value_ ow, 2).
Proof.
  intros Hwf Ho. eexists _, _. split; [by apply IntWrapper_copy_eq|].
  split; [by apply wf_next_fresh|].
  unfold fields; cbn. by rewrite lookup_insert_eq.
Qed.

Lemma copy_construct_fields_witness :
  ∃ l st', IntWrapper_copy 0%nat demo_one = Some (l, st') ∧
           heap demo_one !! l = None ∧
           fields st' l = Some (22, 2).
Proof.
  apply (copy_construct_fields demo_one 0%nat {| value_ := 22; val2 := 22 |}).
  - by apply (bool_decide_unpack _).
  - reflexivity.
Defined.

(** C7. Move construction from a live instance [o] yields a new instance
    whose primary field is that of [o] and whose secondary field is 2, the
    default, not the secondary field of [o]. *)
Theorem move_construct_fields (st : state) (o : loc) (ow : IntWrapper) :
  wf st → heap st !! o = Some ow →
  ∃ l st', IntWrapper_move (std_move o) st = Some (l, st') ∧
           heap st !! l = None ∧
           fields st' l = Some (value_ ow, 2).
Proof.
  intros Hwf Ho. eexists _, _. split; [by apply IntWrapper_move_eq|].
  split; [by apply wf_next_fresh|].
  unfold fields; cbn. by rewrite lookup_insert_eq.
Qed.

Lemma move_construct_fields_witness :
  ∃ l st', IntWrapper_move (std_move 0%nat) demo_one = Some (l, st') ∧
           heap demo_one !! l = None ∧
           fields st' l = Some (22, 2).
Proof.
  apply (move_construct_fields demo_one 0%nat {| value_ := 22; val2 := 22 |}).
  - by apply (bool_decide_unpack _).
  - reflexivity.
Defined.

(** ** Assignment *)

(** C4. Copy-assigning a live source [o] into a live destination [d] sets
    the primary field of [d] to that of [o] and leaves the secondary field
    of [d] as it was before the assignment; no other object changes. *)
Theorem copy_assign_frame (st : state) (d o : loc) (dw ow : IntWrapper) :
  heap st !! d = Some dw → heap st !! o = Some ow →
  ∃ st', operator_assign_copy d o st = Some (d, st') ∧
         fields st' d = Some (value_ ow, val2 dw) ∧
         ∀ l : loc, l ≠ d → heap st' !! l = heap st !! l.
Proof.
  intros Hd Ho. eexists. split; [by eapply operator_assign_copy_eq|].
  unfold fields; cbn. split; [by rewrite lookup_insert_eq|].
  intros l Hl. by rewrite lookup_insert_ne.
Qed.

Lemma copy_assign_frame_witness :
  ∃ st', operator_assign_copy 1%nat 0%nat demo_two = Some (1%nat, st') ∧
         fields st' 1%nat = Some (22, 2) ∧
         ∀ l : loc, l ≠ 1%nat → heap st' !! l = heap demo_two !! l.
Proof.
  apply (copy_assign_frame demo_two 1%nat 0%nat
           {| value_ := 0; val2 := 2 |} {| value_ := 22; val2 := 22 |});
    reflexivity.
Defined.

(** C3. Move-assigning a live source [o] into a live destination [d] ends
    with the same fields of [d] (indeed the same store) as copy-assigning
    [o] into [d] from the same state: primary taken from [o], secondary
    kept. *)
Theorem move_assign_as_copy_assign (st : state) (d o : loc) (dw ow : IntWrapper) :
  heap st !! d = Some dw → heap st !! o = Some ow →
  ∃ sc sm, operator_assign_copy d o st = Some (d, sc) ∧
           operator_assign_move d (std_move o) st = Some (d, sm) ∧
           fields sm d = fields sc d ∧
           fields sc d = Some (value_ ow, val2 dw) ∧
           heap sm = heap sc.
Proof.
  intros Hd Ho. eexists _, _.
  split; [by eapply operator_assign_copy_eq|].
  split; [by eapply operator_assign_move_eq|].
  unfold fields; cbn. rewrite lookup_insert_eq. done.
Qed.

Lemma move_assign_as_copy_assign_witness :
  ∃ sc sm, operator_assign_copy 1%nat 0%nat demo_two = Some (1%nat, sc) ∧
           operator_assign_move 1%nat (std_move 0%nat) demo_two = Some (1%nat, sm) ∧
           fields sm 1%nat = fields sc 1%nat ∧
           fields sc 1%nat = Some (22, 2) ∧
           heap sm = heap sc.
Proof.
  apply (move_assign_as_copy_assign demo_two 1%nat 0%nat
           {| value_ := 0; val2 := 2 |} {| value_ := 22; val2 := 22 |});
    reflexivity.
Defined.

(** C10. Moving from a live instance [o], by move construction or by move
    assignment into any live destination (also [o] itself), leaves [o]
    alive with both of its fields as they were. *)
Theorem move_leaves_source (st : state) (o : loc) (ow : IntWrapper) :
  wf st → heap st !! o = Some ow →
  (∃ l st', IntWrapper_move (std_move o) st = Some (l, st') ∧
            heap st' !! o = Some ow) ∧
  (∀ (d : loc) (dw : IntWrapper), heap st !! d = Some dw →
     ∃ st', operator_assign_move d (std_move o) st = Some (d, st') ∧
            heap st' !! o = Some ow).
Proof.
  intros Hwf Ho. split.
  - eexists _, _. split; [by apply IntWrapper_move_eq|]. cbn.
    rewrite lookup_insert_ne; [exact Ho|].
    symmetry. by eapply wf_live_ne_next.
  - intros d dw Hd. eexists. split; [by eapply operator_assign_move_eq|]. cbn.
    destruct (decide (d = o)) as [->|Hne].
    + rewrite lookup_insert_eq. rewrite Ho in Hd. injection Hd as <-.
      by destruct ow.
    + by rewrite lookup_insert_ne.
Qed.

Lemma move_leaves_source_witness :
  (∃ l st', IntWrapper_move (std_move 0%nat) demo_two = Some (l, st') ∧
            heap st' !! 0%nat = Some {| value_ := 22; val2 := 22 |}) ∧
  (∀ (d : loc) (dw : IntWrapper), heap demo_two !! d = Some dw →
     ∃ st', operator_assign_move d (std_move 0%nat) demo_two = Some (d, st') ∧
            heap st' !! 0%nat = Some {| value_ := 22; val2 := 22 |}).
Proof.
  apply (move_leaves_source demo_two 0%nat {| value_ := 22; val2 := 22 |}).
  - by apply (bool_decide_unpack _).
  - reflexivity.
Defined.

(** ** The secondary field over an instance's lifetime *)

(** C2. The secondary field of an instance is fixed by its construction:
    along any history of constructions, copy and move assignments and
    destructions, an instance that is alive before and still alive after
    has the secondary field it started with. *)
Theorem val2_fixed_for_lifetime
    (os : list op) (st st' : state) (l : loc) (w w' : IntWrapper) :
  wf st → heap st !! l = Some w →
  exec_ops os st = Some (tt, st') → heap st' !! l = Some w' →
  val2 w' = val2 w.
Proof.
  intros Hwf Hl Hrun Hl'.
  destruct (exec_ops_preserved os st st' Hwf Hrun) as (_ & _ & Hkeep & _).
  exact (Hkeep l w w' Hl Hl').
Qed.

Lemma val2_fixed_for_lifetime_witness :
  ∃ st', exec_ops demo_history demo_two = Some (tt, st') ∧
         heap st' !! 1%nat = Some {| value_ := 22; val2 := 2 |} ∧
         val2 {| value_ := 22; val2 := 2 |} = val2 {| value_ := 0; val2 := 2 |}.
Proof.
  eexists. split; [reflexivity|]. split; [reflexivity|].
  eapply (val2_fixed_for_lifetime demo_history demo_two _ 1%nat).
  - by apply (bool_decide_unpack _).
  - reflexivity.
  - reflexivity.
  - reflexivity.
Defined.

(** ** The two demonstrations *)

(** C8. In [main] of [constructors.cpp]: after value-constructing [h1]
    with 22 its fields are (22, 22); after default-constructing [h2] its
    fields are (0, 2); after the copy assignment [h2 = h1] the fields of
    [h2] are (22, 2); after the move assignment [h2 = std::move(h1)] they
    are (22, 2) again.  These four steps are the body of [main], which then
    returns 0. *)
Theorem constructors_main_scenario :
  ∃ h1 s1 h2 s2 s3 s4 s5,
    IntWrapper_value 22 init = Some (h1, s1) ∧
    fields s1 h1 = Some (22, 22) ∧
    IntWrapper_default s1 = Some (h2, s2) ∧
    fields s2 h2 = Some (0, 2) ∧
    operator_assign_copy h2 h1 s2 = Some (h2, s3) ∧
    fields s3 h2 = Some (22, 2) ∧
    operator_assign_move h2 (std_move h1) s3 = Some (h2, s4) ∧
    fields s4 h2 = Some (22, 2) ∧
    Constructors.main_body init = Some ((h1, h2), s4) ∧
    Constructors.main init = Some (0, s5).
Proof. do 7 eexists. repeat split; reflexivity. Qed.


(** C9. In [main] of [forwarding.cpp], value-constructing an instance with
    2 and handing it to [valAssign], which move-constructs its local from
    the argument and prints that local's primary field, prints the value 2
    (after the two constructor markers and the label). *)
Theorem forwarding_main_output :
  ∃ st, Forwarding.main init = Some (0, st) ∧
        cout st = [OutStr ("arg constructor" +:+ LF);
                   OutStr ("move const." +:+ LF);
                   OutStr "value: "; OutInt 2; OutEndl].
Proof. eexists. split; reflexivity. Qed.

(** * Further properties of the class and of the free functions *)

(** ** The exact effect of one operation *)

Lemma exec_op_effect (o : op) (st st' : state) :
  exec_op o st = Some (tt, st') →
  match o with
  | DefaultConstruct =>
      heap st' = <[next st := {| value_ := 0; val2 := 2 |}]> (heap st) ∧
      next st' = S (next st)
  | ValueConstruct v =>
      heap st' = <[next st := {| value_ := v; val2 := v |}]> (heap st) ∧
      next st' = S (next st)
  | CopyConstruct other | MoveConstruct other =>
      ∃ ow, heap st !! other = Some ow ∧
            heap st' = <[next st := {| value_ := value_ ow; val2 := 2 |}]> (heap st) ∧
            next st' = S (next st)
  | CopyAssign this other | MoveAssign this other =>
      ∃ dw ow, heap st !! this = Some dw ∧ heap st !! other = Some ow ∧
               heap st' = <[this := {| value_ := value_ ow; val2 := val2 dw |}]> (heap st) ∧
               next st' = next st
  | Destroy this =>
      is_Some (heap st !! this) ∧ heap st' = delete this (heap st) ∧
      next st' = next st
  end ∧
  cout st' = cout st ++ match kind_of o with
                        | Some k => [OutStr (marker k)]
                        | None => []
                        end.
Proof.
  destruct o as [|v|other|other|this other|this other|this];
    cbn [exec_op kind_of marker]; unfold_ops.
  - intros [= <-]. by cbn.
  - intros [= <-]. by cbn.
  - destruct (heap st !! other) as [ow|] eqn:Ho; [|discriminate].
    intros [= <-]. cbn. split; [by exists ow|reflexivity].
  - destruct (heap st !! other) as [ow|] eqn:Ho; [|discriminate].
    intros [= <-]. cbn. split; [by exists ow|reflexivity].
  - destruct (heap st !! other) as [ow|] eqn:Ho; [|discriminate].
    cbn [heap]. destruct (heap st !! this) as [dw|] eqn:Hd; [|discriminate].
    intros [= <-]. cbn. split; [by exists dw, ow|reflexivity].
  - destruct (heap st !! other) as [ow|] eqn:Ho; [|discriminate].
    cbn [heap]. destruct (heap st !! this) as [dw|] eqn:Hd; [|discriminate].
    intros [= <-]. cbn. split; [by exists dw, ow|reflexivity].
  - destruct (heap st !! this) as [dw|] eqn:Hd; [|discriminate].
    intros [= <-]. cbn. rewrite app_nil_r. eauto.
Qed.

(** Running a history one operation at a time. *)
Lemma exec_ops_cons (o : op) (os : list op) (st st' : state) :
  exec_ops (o :: os) st = Some (tt, st') ↔
  ∃ st1, exec_op o st = Some (tt, st1) ∧ exec_ops os st1 = Some (tt, st').
Proof.
  cbn [exec_ops]. unfold_M. split.
  - destruct (exec_op o st) as [[[] st1]|]; [eauto|discriminate].
  - intros (st1 & -> & H). exact H.
Qed.

(** ** The output identifies the operations *)

(** The markers of the six member functions are pairwise different. *)
Lemma marker_inj : Inj (=) (=) marker.
Proof. intros k1 k2 H. destruct k1, k2; (reflexivity || discriminate H). Qed.

Lemma exec_ops_cout (os : list op) (st st' : state) :
  exec_ops os st = Some (tt, st') →
  cout st' = cout st ++ ((λ k, OutStr (marker k)) <$> kinds os).
Proof.
  revert st. induction os as [|o os IH]; intros st Hrun.
  - injection Hrun as <-. cbn. by rewrite app_nil_r.
  - apply exec_ops_cons in Hrun as (st1 & Ho & Hrun).
    rewrite (IH st1 Hrun). apply exec_op_effect in Ho as [_ ->].
    unfold kinds. cbn [omap list_omap]. rewrite <- app_assoc.
    by destruct (kind_of o).
Qed.

(** X1. A history that runs to its end appends to the output exactly the
    markers of its operations, one per constructor or assignment and in the
    order in which they ran; destruction prints nothing. *)
Theorem history_output (os : list op) (st st' : state) :
  exec_ops os st = Some (tt, st') →
  cout st' = cout st ++ ((λ k, OutStr (marker k)) <$> kinds os).
Proof. apply exec_ops_cout. Qed.

Lemma history_output_witness :
  ∃ st', exec_ops demo_history demo_two = Some (tt, st') ∧
         cout st' = cout demo_two ++
                    ((λ k, OutStr (marker k)) <$> [KCopyAssign; KMoveAssign; KCopy; KValue]).
Proof.
  eexists. split; [vm_compute; reflexivity|].
  apply (history_output demo_history demo_two). reflexivity.
Defined.

(** X2. The output tells which member functions ran: two histories that
    start with the same output and end with the same output ran the same
    sequence of constructors and assignments. *)
Theorem output_determines_kinds
    (os1 os2 : list op) (st1 st2 st1' st2' : state) :
  cout st1 = cout st2 →
  exec_ops os1 st1 = Some (tt, st1') →
  exec_ops os2 st2 = Some (tt, st2') →
  cout st1' = cout st2' →
  kinds os1 = kinds os2.
Proof.
  intros Hin H1 H2 Hout.
  apply exec_ops_cout in H1, H2. rewrite H1, H2, Hin in Hout.
  apply app_inv_head in Hout.
  assert (Inj (=) (=) (λ k, OutStr (marker k))) as Hinj.
  { intros k1 k2 [= H]. by apply marker_inj. }
  by apply (inj (fmap (λ k, OutStr (marker k)))) in Hout.
Qed.

Lemma output_determines_kinds_witness :
  kinds [ValueConstruct 22; DefaultConstruct; CopyAssign 1%nat 0%nat;
         Destroy 1%nat] =
  kinds [ValueConstruct 5; Destroy 0%nat; DefaultConstruct;
         CopyAssign 1%nat 1%nat].
Proof.
  eapply (output_determines_kinds _ _ init init);
    [reflexivity | vm_compute; reflexivity | vm_compute; reflexivity | reflexivity].
Defined.

(** ** Objects do not interfere *)

(** One operation leaves alone every live object it does not target. *)
Lemma exec_op_frame (o : op) (st st' : state) (l : loc) (w : IntWrapper) :
  wf st → heap st !! l = Some w → target o ≠ Some l →
  exec_op o st = Some (tt, st') → heap st' !! l = Some w.
Proof.
  intros Hwf Hl Ht Hrun. apply exec_op_effect in Hrun as [Heff _].
  pose proof (wf_live_ne_next st l w Hwf Hl) as Hne.
  destruct o as [|v|other|other|this other|this other|this]; cbn in Ht.
  - destruct Heff as [-> _]. by rewrite lookup_insert_ne.
  - destruct Heff as [-> _]. by rewrite lookup_insert_ne.
  - destruct Heff as (ow & _ & -> & _). by rewrite lookup_insert_ne.
  - destruct Heff as (ow & _ & -> & _). by rewrite lookup_insert_ne.
  - destruct Heff as (dw & ow & _ & _ & -> & _).
    rewrite lookup_insert_ne; [done|congruence].
  - destruct Heff as (dw & ow & _ & _ & -> & _).
    rewrite lookup_insert_ne; [done|congruence].
  - destruct Heff as (_ & -> & _).
    rewrite lookup_delete_ne; [done|congruence].
Qed.

(** X3. Instances share nothing: an object that no operation of a history
    assigns to or destroys has both fields unchanged at the end, whatever
    is constructed from it, assigned from it, or done to other objects. *)
Theorem untargeted_object_unchanged
    (os : list op) (st st' : state) (l : loc) (w : IntWrapper) :
  wf st → heap st !! l = Some w →
  Forall (λ o, target o ≠ Some l) os →
  exec_ops os st = Some (tt, st') →
  heap st' !! l = Some w.
Proof.
  revert st. induction os as [|o os IH]; intros st Hwf Hl Hall Hrun.
  - by injection Hrun as <-.
  - apply exec_ops_cons in Hrun as (st1 & Ho & Hrun).
    apply Forall_cons in Hall as [Ht Hall].
    apply (IH st1); [|by eapply exec_op_frame|done..].
    by destruct (exec_op_preserved o st st1 Hwf Ho).
Qed.

Lemma untargeted_object_unchanged_witness :
  ∃ st', exec_ops demo_readers demo_two = Some (tt, st') ∧
         heap st' !! 0%nat = Some {| value_ := 22; val2 := 22 |}.
Proof.
  eexists. split; [vm_compute; reflexivity|].
  eapply (untargeted_object_unchanged demo_readers demo_two _ 0%nat).
  - by apply (bool_decide_unpack _).
  - reflexivity.
  - repeat constructor; discriminate.
  - reflexivity.
Defined.

(** One operation other than the destruction of [l] keeps [l] alive. *)
Lemma exec_op_alive (o : op) (st st' : state) (l : loc) (w : IntWrapper) :
  wf st → heap st !! l = Some w → o ≠ Destroy l →
  exec_op o st = Some (tt, st') → is_Some (heap st' !! l).
Proof.
  intros Hwf Hl Hne Hrun.
  destruct (decide (target o = Some l)) as [Ht|Ht].
  - apply exec_op_effect in Hrun as [Heff _].
    destruct o as [|v|other|other|this other|this other|this];
      cbn in Ht; try discriminate; injection Ht as ->; try congruence.
    + destruct Heff as (dw & ow & _ & _ & -> & _). by rewrite lookup_insert_eq.
    + destruct Heff as (dw & ow & _ & _ & -> & _). by rewrite lookup_insert_eq.
  - exists w. by eapply exec_op_frame.
Qed.

Lemma exec_ops_alive (os : list op) (st st' : state) (l : loc) :
  wf st → is_Some (heap st !! l) → Destroy l ∉ os →
  exec_ops os st = Some (tt, st') → is_Some (heap st' !! l).
Proof.
  revert st. induction os as [|o os IH]; intros st Hwf [w Hl] Hnd Hrun.
  - injection Hrun as <-. by exists w.
  - apply exec_ops_cons in Hrun as (st1 & Ho & Hrun).
    apply not_elem_of_cons in Hnd as [Hne Hnd].
    apply (IH st1); [|by eapply exec_op_alive|done..].
    by destruct (exec_op_preserved o st st1 Hwf Ho).
Qed.

(** X4. Only destruction ends a lifetime: an object that a history never
    destroys is still alive when the history ends, with the secondary
    field it had at the start. *)
Theorem never_destroyed_stays_alive
    (os : list op) (st st' : state) (l : loc) (w : IntWrapper) :
  wf st → heap st !! l = Some w →
  Destroy l ∉ os →
  exec_ops os st = Some (tt, st') →
  ∃ w', heap st' !! l = Some w' ∧ val2 w' = val2 w.
Proof.
  intros Hwf Hl Hnd Hrun.
  destruct (exec_ops_alive os st st' l Hwf (ex_intro _ w Hl) Hnd Hrun) as [w' Hl'].
  exists w'. split; [done|].
  destruct (exec_ops_preserved os st st' Hwf Hrun) as (_ & _ & Hkeep & _).
  by apply (Hkeep l).
Qed.

Lemma never_destroyed_stays_alive_witness :
  ∃ st', exec_ops demo_history demo_two = Some (tt, st') ∧
         ∃ w', heap st' !! 1%nat = Some w' ∧
               val2 w' = val2 {| value_ := 0; val2 := 2 |}.
Proof.
  eexists. split; [vm_compute; reflexivity|].
  eapply (never_destroyed_stays_alive demo_history demo_two _ 1%nat).
  - by apply (bool_decide_unpack _).
  - reflexivity.
  - unfold demo_history. rewrite !not_elem_of_cons.
    repeat split; try discriminate. apply not_elem_of_nil.
  - reflexivity.
Defined.

(** ** Assigning again *)

Lemma exec_op_assign (a : op) (st : state) (d o : loc) (dw ow : IntWrapper) :
  a ∈ [CopyAssign d o; MoveAssign d o] →
  heap st !! d = Some dw → heap st !! o = Some ow →
  ∃ st', exec_op a st = Some (tt, st') ∧
         heap st' = <[d := {| value_ := value_ ow; val2 := val2 dw |}]> (heap st) ∧
         next st' = next st.
Proof.
  intros Ha Hd Ho. apply elem_of_cons in Ha as [->|Ha];
    [|apply list_elem_of_singleton in Ha as ->]; cbn [exec_op]; unfold_M.
  - rewrite (operator_assign_copy_eq st d o dw ow Hd Ho). by eexists.
  - unfold std_move at 1.
    rewrite (operator_assign_move_eq st d o dw ow Hd Ho). by eexists.
Qed.

(** X5. Assigning the same source to the same destination a second time,
    by copy or by move in either order, changes nothing in the store; this
    includes assigning an object to itself. *)
Theorem assign_again_no_change
    (a1 a2 : op) (st : state) (d o : loc) (dw ow : IntWrapper) :
  heap st !! d = Some dw → heap st !! o = Some ow →
  a1 ∈ [CopyAssign d o; MoveAssign d o] →
  a2 ∈ [CopyAssign d o; MoveAssign d o] →
  ∃ s1 s2, exec_op a1 st = Some (tt, s1) ∧
           exec_op a2 s1 = Some (tt, s2) ∧
           heap s2 = heap s1 ∧ next s2 = next s1.
Proof.
  intros Hd Ho H1 H2.
  destruct (exec_op_assign a1 st d o dw ow H1 Hd Ho) as (s1 & E1 & Hh1 & Hn1).
  assert (Hd1 : heap s1 !! d = Some {| value_ := value_ ow; val2 := val2 dw |}).
  { rewrite Hh1. apply lookup_insert_eq. }
  assert (∃ ow1, heap s1 !! o = Some ow1 ∧ value_ ow1 = value_ ow)
    as (ow1 & Ho1 & Hv1).
  { destruct (decide (d = o)) as [->|Hne].
    - eexists. split; [exact Hd1|reflexivity].
    - exists ow. split; [|reflexivity]. rewrite Hh1. by rewrite lookup_insert_ne. }
  destruct (exec_op_assign a2 s1 d o _ ow1 H2 Hd1 Ho1) as (s2 & E2 & Hh2 & Hn2).
  exists s1, s2. repeat split; try done.
  rewrite Hh2, Hv1. cbn [val2]. apply insert_id. exact Hd1.
Qed.

Lemma assign_again_no_change_witness :
  ∃ s1 s2, exec_op (CopyAssign 1%nat 0%nat) demo_two = Some (tt, s1) ∧
           exec_op (MoveAssign 1%nat 0%nat) s1 = Some (tt, s2) ∧
           heap s2 = heap s1 ∧ next s2 = next s1.
Proof.
  apply (assign_again_no_change _ _ demo_two 1%nat 0%nat
           {| value_ := 0; val2 := 2 |} {| value_ := 22; val2 := 22 |}).
  - reflexivity.
  - reflexivity.
  - apply list_elem_of_here.
  - apply list_elem_of_further, list_elem_of_here.
Defined.

(** ** Where payloads come from *)

Lemma exec_op_value (o : op) (st st' : state) (l : loc) (w' : IntWrapper) :
  exec_op o st = Some (tt, st') → heap st' !! l = Some w' →
  (o = DefaultConstruct ∧ value_ w' = 0) ∨
  o = ValueConstruct (value_ w') ∨
  ∃ (l0 : loc) (w0 : IntWrapper), heap st !! l0 = Some w0 ∧ value_ w0 = value_ w'.
Proof.
  intros Hrun Hl. apply exec_op_effect in Hrun as [Heff _].
  destruct o as [|v|other|other|this other|this other|this].
  - destruct Heff as [Hh _]. rewrite Hh in Hl.
    apply lookup_insert_Some in Hl as [[_ <-]|[_ Hl]]; [by left|eauto 6].
  - destruct Heff as [Hh _]. rewrite Hh in Hl.
    apply lookup_insert_Some in Hl as [[_ <-]|[_ Hl]]; [by right; left|eauto 6].
  - destruct Heff as (ow & Ho & Hh & _). rewrite Hh in Hl.
    apply lookup_insert_Some in Hl as [[_ <-]|[_ Hl]]; eauto 6.
  - destruct Heff as (ow & Ho & Hh & _). rewrite Hh in Hl.
    apply lookup_insert_Some in Hl as [[_ <-]|[_ Hl]]; eauto 6.
  - destruct Heff as (dw & ow & Hd & Ho & Hh & _). rewrite Hh in Hl.
    apply lookup_insert_Some in Hl as [[_ <-]|[_ Hl]]; eauto 6.
  - destruct Heff as (dw & ow & Hd & Ho & Hh & _). rewrite Hh in Hl.
    apply lookup_insert_Some in Hl as [[_ <-]|[_ Hl]]; eauto 6.
  - destruct Heff as (_ & Hh & _). rewrite Hh in Hl.
    apply lookup_delete_Some in Hl as [_ Hl]. eauto 6.
Qed.

(** X6. No operation invents a payload: after any history, the primary
    field of every live object is 0 from a default construction in the
    history, the argument of a value construction in the history, or the
    primary field of some object that was alive at the start. *)
Theorem value_provenance
    (os : list op) (st st' : state) (l : loc) (w' : IntWrapper) :
  exec_ops os st = Some (tt, st') → heap st' !! l = Some w' →
  (DefaultConstruct ∈ os ∧ value_ w' = 0) ∨
  ValueConstruct (value_ w') ∈ os ∨
  ∃ (l0 : loc) (w0 : IntWrapper), heap st !! l0 = Some w0 ∧ value_ w0 = value_ w'.
Proof.
  revert st. induction os as [|o os IH]; intros st Hrun Hl.
  - injection Hrun as <-. eauto 6.
  - apply exec_ops_cons in Hrun as (st1 & Ho & Hrun).
    destruct (IH st1 Hrun Hl) as [[Hin Hv]|[Hin|(l1 & w1 & Hl1 & Hv1)]].
    + left. split; [by apply list_elem_of_further|done].
    + right; left. by apply list_elem_of_further.
    + destruct (exec_op_value o st st1 l1 w1 Ho Hl1)
        as [[-> Hv]|[->|(l0 & w0 & Hl0 & Hv0)]].
      * left. split; [apply list_elem_of_here|congruence].
      * right; left. rewrite Hv1. apply list_elem_of_here.
      * right; right. exists l0, w0. split; [done|congruence].
Qed.

Lemma value_provenance_witness :
  ∃ st', exec_ops demo_history demo_two = Some (tt, st') ∧
         ((DefaultConstruct ∈ demo_history ∧
           value_ {| value_ := 7; val2 := 7 |} = 0) ∨
          ValueConstruct (value_ {| value_ := 7; val2 := 7 |}) ∈ demo_history ∨
          ∃ (l0 : loc) (w0 : IntWrapper),
            heap demo_two !! l0 = Some w0 ∧
            value_ w0 = value_ {| value_ := 7; val2 := 7 |}).
Proof.
  eexists. split; [vm_compute; reflexivity|].
  eapply (value_provenance demo_history demo_two _ 3%nat); reflexivity.
Defined.

(** ** Counting objects *)

Lemma wf_beyond_next (st : state) (l : loc) :
  wf st → (next st ≤ l)%nat → heap st !! l = None.
Proof.
  intros Hwf Hle. destruct (heap st !! l) as [w|] eqn:E; [|reflexivity].
  apply (wf_live st l w Hwf) in E. lia.
Qed.

Lemma map_size_delete_live (m : gmap loc IntWrapper) (l : loc) :
  is_Some (m !! l) → S (size (delete l m)) = size m.
Proof.
  intros [w Hl]. rewrite <- (insert_delete_id m l w Hl) at 2.
  rewrite map_size_insert_None; [reflexivity|apply lookup_delete_eq].
Qed.

Lemma exec_op_size (o : op) (st st' : state) :
  wf st → exec_op o st = Some (tt, st') →
  (size (heap st') + count_ops is_destroy [o] =
   size (heap st) + count_ops is_construct [o])%nat.
Proof.
  intros Hwf Hrun. apply exec_op_effect in Hrun as [Heff _].
  pose proof (wf_next_fresh st Hwf) as Hfresh.
  destruct o as [|v|other|other|this other|this other|this]; cbn.
  - destruct Heff as [-> _]. rewrite map_size_insert_None by done. lia.
  - destruct Heff as [-> _]. rewrite map_size_insert_None by done. lia.
  - destruct Heff as (ow & _ & -> & _). rewrite map_size_insert_None by done. lia.
  - destruct Heff as (ow & _ & -> & _). rewrite map_size_insert_None by done. lia.
  - destruct Heff as (dw & ow & Hd & _ & -> & _).
    rewrite map_size_insert_Some by eauto. lia.
  - destruct Heff as (dw & ow & Hd & _ & -> & _).
    rewrite map_size_insert_Some by eauto. lia.
  - destruct Heff as (Hd & -> & _).
    rewrite <- (map_size_delete_live (heap st) this Hd). lia.
Qed.

(** X7. Constructors are the only operations that add an object and
    destruction the only one that removes one: after any history the number
    of live objects is the number at the start, plus the constructions,
    minus the destructions.  Assignments never change it. *)
Theorem object_count (os : list op) (st st' : state) :
  wf st → exec_ops os st = Some (tt, st') →
  (size (heap st') + count_ops is_destroy os =
   size (heap st) + count_ops is_construct os)%nat.
Proof.
  revert st. induction os as [|o os IH]; intros st Hwf Hrun.
  - injection Hrun as <-. reflexivity.
  - apply exec_ops_cons in Hrun as (st1 & Ho & Hrun).
    pose proof (exec_op_size o st st1 Hwf Ho) as H1.
    destruct (exec_op_preserved o st st1 Hwf Ho) as [Hwf1 _].
    pose proof (IH st1 Hwf1 Hrun) as H2.
    unfold count_ops in *. cbn [List.filter] in *.
    destruct (is_destroy o), (is_construct o); cbn [length] in *; lia.
Qed.

Lemma object_count_witness :
  ∃ st', exec_ops demo_history demo_two = Some (tt, st') ∧
         (size (heap st') + 1 = 2 + 2)%nat.
Proof.
  eexists. split; [vm_compute; reflexivity|].
  apply (object_count demo_history demo_two).
  - by apply (bool_decide_unpack _).
  - reflexivity.
Defined.

(** ** The free functions *)

Ltac run_lookups :=
  repeat (first [ rewrite lookup_insert_eq
                | rewrite lookup_insert_ne by lia
                | rewrite lookup_delete_ne by lia ];
          cbn [heap next cout value_ val2]).

(** X9. Passing by reference against passing by value.  For a live object
    [o], [func1] and [func3] print its primary field and nothing else: no
    constructor runs.  [func2] prints the same value after the marker of the
    copy constructor (lvalue argument) or of the move constructor
    ([std::move] argument).  All four calls leave the store, and so [o], as
    they found it. *)
Theorem by_reference_and_by_value (st : state) (o : loc) (ow : IntWrapper) :
  wf st → heap st !! o = Some ow →
  ∃ s1 s3 s2 s2',
    Constructors.func1 o st = Some (tt, s1) ∧
    Constructors.func3 (std_move o) st = Some (tt, s3) ∧
    Constructors.func2 (ArgLvalue o) st = Some (tt, s2) ∧
    Constructors.func2 (ArgXvalue (std_move o)) st = Some (tt, s2') ∧
    heap s1 = heap st ∧ heap s3 = heap st ∧
    heap s2 = heap st ∧ heap s2' = heap st ∧
    cout s1 = cout st ++ [OutInt (value_ ow); OutEndl] ∧
    cout s3 = cout st ++ [OutInt (value_ ow); OutEndl] ∧
    cout s2 = cout st ++ [OutStr ("copy constructor" +:+ LF);
                          OutInt (value_ ow); OutEndl] ∧
    cout s2' = cout st ++ [OutStr ("move const." +:+ LF);
                           OutInt (value_ ow); OutEndl].
Proof.
  intros Hwf Ho. pose proof (wf_next_fresh st Hwf) as Hfresh.
  unfold Constructors.func1, Constructors.func3, Constructors.func2,
    pass_by_value, std_move.
  unfold_M.
  rewrite (IntWrapper_copy_eq st o ow Ho), (IntWrapper_move_eq st o ow Ho).
  unfold_ops. rewrite Ho. run_lookups.
  do 4 eexists. repeat split; cbn [heap cout];
    rewrite ?delete_insert_id by done; rewrite <- ?app_assoc; reflexivity.
Qed.

Lemma by_reference_and_by_value_witness :
  ∃ s1 s3 s2 s2',
    Constructors.func1 0%nat demo_one = Some (tt, s1) ∧
    Constructors.func3 (std_move 0%nat) demo_one = Some (tt, s3) ∧
    Constructors.func2 (ArgLvalue 0%nat) demo_one = Some (tt, s2) ∧
    Constructors.func2 (ArgXvalue (std_move 0%nat)) demo_one = Some (tt, s2') ∧
    heap s1 = heap demo_one ∧ heap s3 = heap demo_one ∧
    heap s2 = heap demo_one ∧ heap s2' = heap demo_one ∧
    cout s1 = cout demo_one ++ [OutInt 22; OutEndl] ∧
    cout s3 = cout demo_one ++ [OutInt 22; OutEndl] ∧
    cout s2 = cout demo_one ++ [OutStr ("copy constructor" +:+ LF);
                               OutInt 22; OutEndl] ∧
    cout s2' = cout demo_one ++ [OutStr ("move const." +:+ LF);
                                OutInt 22; OutEndl].
Proof.
  apply (by_reference_and_by_value demo_one 0%nat {| value_ := 22; val2 := 22 |}).
  - by apply (bool_decide_unpack _).
  - reflexivity.
Defined.


(** X10. [main] of [constructors.cpp], run in any well-formed state,
    returns 0, prints the markers of the value constructor, the default
    constructor, the copy assignment and the move assignment in this order
    (no copy or move constructor runs), and leaves no object behind. *)
Theorem constructors_main_runs (st : state) :
  wf st →
  ∃ st', Constructors.main st = Some (0, st') ∧
         heap st' = heap st ∧
         cout st' = cout st ++ [OutStr ("arg constructor" +:+ LF);
                                OutStr ("default const." +:+ LF);
                                OutStr ("copy assignment" +:+ LF);
                                OutStr ("move assignment" +:+ LF)].
Proof.
  intros Hwf.
  pose proof (wf_next_fresh st Hwf) as Hfresh.
  pose proof (wf_beyond_next st (S (next st)) Hwf ltac:(lia)) as Hfresh'.
  unfold Constructors.main, Constructors.main_body. unfold_ops. run_lookups.
  eexists. split; [reflexivity|]. cbn [heap cout]. split.
  - rewrite !insert_insert_eq.
    rewrite delete_insert_id by (by rewrite lookup_insert_ne by lia).
    by rewrite delete_insert_id.
  - by rewrite <- !app_assoc.
Qed.

Lemma constructors_main_runs_witness :
  ∃ st', Constructors.main demo_two = Some (0, st') ∧
         heap st' = heap demo_two ∧
         cout st' = cout demo_two ++ [OutStr ("arg constructor" +:+ LF);
                                      OutStr ("default const." +:+ LF);
                                      OutStr ("copy assignment" +:+ LF);
                                      OutStr ("move assignment" +:+ LF)].
Proof.
  apply (constructors_main_runs demo_two). by apply (bool_decide_unpack _).
Defined.

(** ** Copies are not replicas *)

(** X11. The object made by the copy constructor, and likewise by the move
    constructor, has the same two fields as its source exactly when the
    source's secondary field is the default 2; a source built by value
    construction from any other integer is never reproduced. *)
Theorem constructed_equal_iff (st : state) (o : loc) (ow : IntWrapper) :
  heap st !! o = Some ow →
  ∃ lc sc lm sm,
    IntWrapper_copy o st = Some (lc, sc) ∧
    IntWrapper_move (std_move o) st = Some (lm, sm) ∧
    (heap sc !! lc = Some ow ↔ val2 ow = 2) ∧
    (heap sm !! lm = Some ow ↔ val2 ow = 2).
Proof.
  intros Ho. unfold std_move.
  rewrite (IntWrapper_copy_eq st o ow Ho), (IntWrapper_move_eq st o ow Ho).
  do 4 eexists. split; [reflexivity|]. split; [reflexivity|].
  cbn [heap]. rewrite lookup_insert_eq. destruct ow as [v s]. cbn.
  split; (split; [intros [= ->]; reflexivity|intros ->; reflexivity]).
Qed.

Lemma constructed_equal_iff_witness :
  ∃ lc sc lm sm,
    IntWrapper_copy 0%nat demo_one = Some (lc, sc) ∧
    IntWrapper_move (std_move 0%nat) demo_one = Some (lm, sm) ∧
    (heap sc !! lc = Some {| value_ := 22; val2 := 22 |} ↔ 22 = 2) ∧
    (heap sm !! lm = Some {| value_ := 22; val2 := 22 |} ↔ 22 = 2).
Proof.
  apply (constructed_equal_iff demo_one 0%nat {| value_ := 22; val2 := 22 |}).
  reflexivity.
Defined.
